(** * Email enrichment pipeline: candidate generation and adaptive search

    A shallow embedding of [src/email_enrichment/pipeline.py]:
    [generate_name_variants], [generate_email_patterns],
    [ReacherClient.validate_email] and the per-lead body of
    [EmailValidationPipeline._validate_leads], followed by the properties
    of these functions.

    Python [str] values are sequences of Unicode code points, so a string
    is a [list N] here.  What Python takes from its Unicode database
    ([str.lower], [str.isspace], [unicodedata.normalize],
    [unicodedata.category]) is not part of the repository and is a
    parameter of the development. *)

From Stdlib Require Import ZArith NArith Lia.
From stdpp Require Import base decidable countable gmap list numbers strings.


(** ** Python strings *)

Abbreviation codepoint := N (only parsing).
Abbreviation pystr := (list N) (only parsing).

(** A literal written in ASCII, as a sequence of code points. *)
Fixpoint u (s : string) : pystr :=
  match s with
  | EmptyString => []
  | String a s' => Ascii.N_of_ascii a :: u s'
  end.

Definition hyphen : codepoint := 45%N.

(** [not s] for a string. *)
Definition py_not {A} (s : list A) : bool :=
  match s with [] => true | _ :: _ => false end.

(** [s.replace(old, empty)] for a one-character [old] and the empty
    string [empty]: every occurrence is removed. *)
Definition py_remove_char (old : codepoint) (s : pystr) : pystr :=
  filter (λ c, c ≠ old) s.

(** [s.split(sep)] for a one-character [sep]; the result is never empty
    (the empty string splits into one empty part). *)
Fixpoint py_split (sep : codepoint) (s : pystr) : list pystr :=
  match s with
  | [] => [[]]
  | c :: s' =>
      if decide (c = sep) then [] :: py_split sep s'
      else match py_split sep s' with
           | w :: ws => (c :: w) :: ws
           | [] => [[c]]
           end
  end.

(** [sep.join(parts)]. *)
Fixpoint py_join (sep : pystr) (parts : list pystr) : pystr :=
  match parts with
  | [] => []
  | [p] => p
  | p :: ps => p ++ sep ++ py_join sep ps
  end.

(** [l[:k]] for a Python [int] [k]: a negative [k] counts from the end. *)
Definition py_slice_to {A} (k : Z) (l : list A) : list A :=
  if (0 <=? k)%Z then take (Z.to_nat k) l
  else take (length l - Z.to_nat (- k)) l.

(** [a or b] on strings. *)
Definition py_or (a : option pystr) (b : pystr) : pystr :=
  match a with
  | Some (c :: s) => c :: s
  | _ => b
  end.

Fixpoint drop_while {A} (p : A → bool) (l : list A) : list A :=
  match l with
  | [] => []
  | x :: l' => if p x then drop_while p l' else l
  end.

(** ** Removing duplicates while preserving order

    The idiom appears three times in the source:
<<
    seen = set()
    unique = []
    for x in xs:
        if x not in seen:
            seen.add(x)
            unique.append(x)
>> *)
Fixpoint unique_loop `{Countable A} (xs : list A) (seen : gset A)
    (unique : list A) : list A :=
  match xs with
  | [] => unique
  | x :: xs' =>
      if decide (x ∈ seen) then unique_loop xs' seen unique
      else unique_loop xs' ({[ x ]} ∪ seen) (unique ++ [x])
  end.

Definition unique_preserving_order `{Countable A} (xs : list A) : list A :=
  unique_loop xs ∅ [].

(** The specification's reading of the same idiom: an element stays
    exactly when it has not occurred earlier in the list. *)
Fixpoint first_seen `{EqDecision A} (xs : list A) : list A :=
  match xs with
  | [] => []
  | x :: xs' => x :: filter (λ y, y ≠ x) (first_seen xs')
  end.

(** ** The verification oracle's reply

    [ReacherClient.validate_email] returns the JSON object of the Reacher
    API as a [dict]; the docstring gives its shape.  A key that may be
    absent is an [option]; the source reads every key with [.get] and a
    default. *)

Record SmtpData := {
  is_deliverable : option bool;
  smtp_can_connect_smtp : option bool }.

Record MiscData := {
  is_disposable : option bool;
  is_role_account : option bool }.

Record MxData := { records : option (list pystr) }.

Record ReacherResult := {
  is_reachable : option pystr;
  smtp : option SmtpData;
  misc : option MiscData;
  mx : option MxData;
  is_reachable_smtp : option bool;
  can_connect_smtp : option bool;
  error : option pystr;
  email : option pystr }.

(** [result["email"] = pattern] *)
Definition set_email (result : ReacherResult) (pattern : pystr) : ReacherResult :=
  {| is_reachable := is_reachable result; smtp := smtp result;
     misc := misc result; mx := mx result;
     is_reachable_smtp := is_reachable_smtp result;
     can_connect_smtp := can_connect_smtp result;
     error := error result; email := Some pattern |}.

(** What [requests.post(...)], [raise_for_status()] and [resp.json()]
    come to: a decoded body, or a [requests.exceptions.RequestException]
    (connection error, timeout, HTTP error status) with its [str(err)].
    The oracle is a function of the request. *)
Inductive PostOutcome :=
  | Json (body : ReacherResult)
  | RequestException (err : pystr).

(** The effects of the search loop, in program order. *)
Inductive Event :=
  | EvValidate (email : pystr)
  | EvSleep.

Global Instance Event_eq_dec : EqDecision Event.
Proof. solve_decision. Defined.

(** The variables of the search loop of [_validate_leads], with the
    effects performed so far. *)
Record SearchState := {
  best_email : option pystr;
  best_status : option pystr;
  best_result : option ReacherResult;
  patterns_tested : nat;
  patterns_validated : nat;
  trace : list Event }.

Definition log (e : Event) (s : SearchState) : SearchState :=
  {| best_email := best_email s; best_status := best_status s;
     best_result := best_result s; patterns_tested := patterns_tested s;
     patterns_validated := patterns_validated s; trace := trace s ++ [e] |}.

Definition set_patterns_tested (n : nat) (s : SearchState) : SearchState :=
  {| best_email := best_email s; best_status := best_status s;
     best_result := best_result s; patterns_tested := n;
     patterns_validated := patterns_validated s; trace := trace s |}.

Definition incr_patterns_validated (s : SearchState) : SearchState :=
  {| best_email := best_email s; best_status := best_status s;
     best_result := best_result s; patterns_tested := patterns_tested s;
     patterns_validated := patterns_validated s + 1; trace := trace s |}.

Definition set_best (pattern status : pystr) (result : ReacherResult)
    (s : SearchState) : SearchState :=
  {| best_email := Some pattern; best_status := Some status;
     best_result := Some result; patterns_tested := patterns_tested s;
     patterns_validated := patterns_validated s; trace := trace s |}.

Inductive Control := Continue | Break.

(** A row of the leads file: each cell as [str(lead.get(column))] gives
    it. *)
Record Lead := {
  first_name : pystr;
  last_name : pystr;
  company_domain : pystr }.

(** The columns of an output record; the columns copied through from the
    input row are left out. *)
Record ValidatedRecord := {
  col_first_name : pystr;
  col_last_name : pystr;
  col_company_domain : pystr;
  col_validated_email : pystr;
  col_validation_status : pystr;
  col_is_reachable : pystr;
  col_is_reachable_smtp : bool;
  col_is_disposable : bool;
  col_is_role_account : bool;
  col_mx_records : pystr;
  col_patterns_tested : nat;
  col_patterns_validated : nat }.

Section Pipeline.

(** *** The Python runtime's Unicode database *)

(** [str.lower]. *)
Variable str_lower : pystr → pystr.
(** [str.isspace] on one character: what [str.strip()] removes. *)
Variable isspace : codepoint → bool.
(** [unicodedata.normalize("NFD", s)]. *)
Variable normalize_NFD : pystr → pystr.
(** [unicodedata.category(c) == "Mn"]. *)
Variable category_Mn : codepoint → bool.

(** *** [config.py] *)

Variable MAX_PATTERNS_PER_LEAD : Z.
Variable INCLUDE_RISKY : bool.

(** [s.strip()]. *)
Definition lstrip (s : pystr) : pystr := drop_while isspace s.
Definition rstrip (s : pystr) : pystr := reverse (drop_while isspace (reverse s)).
Definition strip (s : pystr) : pystr := rstrip (lstrip s).

(** *** [generate_name_variants] *)

(** The characters of [unicodedata.normalize("NFD", s)] whose
    [unicodedata.category] is not ["Mn"], joined. *)
Definition fold_accents (s : pystr) : pystr :=
  filter (λ c, category_Mn c = false) (normalize_NFD s).

(** [any(ord(c) > 127 for c in s)] *)
Definition has_non_ascii (s : pystr) : bool :=
  existsb (λ c, 127 <? c)%N s.

Definition generate_name_variants (first last : pystr)
    : list (pystr * pystr) :=
  let variants :=
    [ (first, last);
      (py_remove_char hyphen first, last);
      (hd [] (py_split hyphen first), last) ] in
  let variants :=
    if has_non_ascii (first ++ last) then
      let first_ascii := fold_accents first in
      let last_ascii := fold_accents last in
      variants ++ [(first_ascii, last_ascii)]
    else variants in
  unique_preserving_order variants.

(** *** [generate_email_patterns] *)

(** The list [patterns] of the source, for the already lower-cased and
    trimmed [first] and [last]; [take 1 s] is [s[0]] on the non-empty
    strings the caller passes. *)
Definition patterns_of (first last domain : pystr) : list pystr :=
  let at_domain := u "@" ++ domain in
  [ first ++ at_domain;
    first ++ u "." ++ last ++ at_domain;
    first ++ last ++ at_domain;
    take 1 first ++ u "." ++ last ++ at_domain;
    take 1 first ++ last ++ at_domain;
    first ++ u "_" ++ last ++ at_domain;
    first ++ u "-" ++ last ++ at_domain;
    first ++ u "." ++ take 1 last ++ at_domain;
    last ++ u "." ++ first ++ at_domain ].

Definition generate_email_patterns (first_name last_name domain : pystr)
    : list pystr :=
  let first := strip (str_lower first_name) in
  let last := strip (str_lower last_name) in
  if py_not first || py_not last || py_not domain then []
  else
    let patterns := patterns_of first last domain in
    let unique_patterns := unique_preserving_order patterns in
    py_slice_to MAX_PATTERNS_PER_LEAD unique_patterns.

(** *** [ReacherClient] *)

Variable REACHER_API_URL : pystr.
(** [requests.post(endpoint, ..., json={"to_email": email})]. *)
Variable requests_post : pystr → pystr → PostOutcome.

(** [self.api_url = api_url.rstrip("/")] *)
Definition api_url : pystr :=
  reverse (drop_while (λ c, c =? 47)%N (reverse REACHER_API_URL)).

Definition validate_email (email : pystr) : ReacherResult :=
  let endpoint := api_url ++ u "/v0/check_email" in
  match requests_post endpoint email with
  | Json body => body
  | RequestException err =>
      {| is_reachable := Some (u "invalid");
         smtp := None; misc := None; mx := None;
         is_reachable_smtp := Some false;
         can_connect_smtp := Some false;
         error := Some err;
         email := None |}
  end.

(** *** The search loop of [_validate_leads] *)

(** [status = result.get("is_reachable", "invalid")] *)
Definition status_of (result : ReacherResult) : pystr :=
  default (u "invalid") (is_reachable result).

(** [result.get("smtp", {}).get("is_deliverable", False)] *)
Definition deliverable_of (result : ReacherResult) : bool :=
  match smtp result with
  | Some smtp_data => default false (is_deliverable smtp_data)
  | None => false
  end.

(** [if pattern_idx < len(unique_patterns): time.sleep(...)] *)
Definition rate_limit (total pattern_idx : nat) (s : SearchState)
    : SearchState :=
  if decide (pattern_idx < total) then log EvSleep s else s.

(** One iteration of [for pattern_idx, pattern in enumerate(unique_patterns, 1)]. *)
Definition loop_body (total pattern_idx : nat) (pattern : pystr)
    (s : SearchState) : Control * SearchState :=
  let s := set_patterns_tested pattern_idx s in
  let result := validate_email pattern in
  let s := log (EvValidate pattern) s in
  let result := set_email result pattern in
  let status := status_of result in
  let is_reachable_smtp := deliverable_of result in
  let s := if is_reachable_smtp then incr_patterns_validated s else s in
  if bool_decide (status = u "invalid") || negb is_reachable_smtp then
    (Continue, rate_limit total pattern_idx s)
  else if bool_decide (status = u "safe") then
    (Break, set_best pattern status result s)
  else
    let s :=
      if bool_decide (status = u "risky")
         && bool_decide (best_status s ≠ Some (u "safe"))
      then (if INCLUDE_RISKY then set_best pattern status result s else s)
      else s in
    (Continue, rate_limit total pattern_idx s).

Fixpoint for_loop (total pattern_idx : nat) (patterns : list pystr)
    (s : SearchState) : SearchState :=
  match patterns with
  | [] => s
  | pattern :: rest =>
      match loop_body total pattern_idx pattern s with
      | (Break, s') => s'
      | (Continue, s') => for_loop total (S pattern_idx) rest s'
      end
  end.

Definition initial_state : SearchState :=
  {| best_email := None; best_status := None; best_result := None;
     patterns_tested := 0; patterns_validated := 0; trace := [] |}.

Definition search (unique_patterns : list pystr) : SearchState :=
  for_loop (length unique_patterns) 1 unique_patterns initial_state.

(** *** The body of [_validate_leads] for one lead *)

(** The merged candidate list of a lead; [None] when the lead is
    skipped. *)
Definition lead_patterns (lead : Lead) : option (list pystr) :=
  let first_name := strip (first_name lead) in
  let last_name := strip (last_name lead) in
  let domain := strip (company_domain lead) in
  if py_not first_name || py_not last_name || py_not domain then None
  else
    let name_variants := generate_name_variants first_name last_name in
    let all_patterns :=
      flat_map (λ v, generate_email_patterns (fst v) (snd v) domain)
        name_variants in
    Some (unique_preserving_order all_patterns).

Definition build_record (first_name last_name domain : pystr)
    (s : SearchState) : ValidatedRecord :=
  {| col_first_name := first_name;
     col_last_name := last_name;
     col_company_domain := domain;
     col_validated_email := py_or (best_email s) [];
     col_validation_status := py_or (best_status s) (u "none_found");
     col_is_reachable :=
       match best_result s with
       | Some r => default [] (is_reachable r)
       | None => []
       end;
     col_is_reachable_smtp :=
       match best_result s with
       | Some r => deliverable_of r
       | None => false
       end;
     col_is_disposable :=
       match best_result s with
       | Some r => default false (misc r ≫= is_disposable)
       | None => false
       end;
     col_is_role_account :=
       match best_result s with
       | Some r => default false (misc r ≫= is_role_account)
       | None => false
       end;
     col_mx_records :=
       match best_result s with
       | Some r => py_join (u ", ") (default [] (mx r ≫= records))
       | None => []
       end;
     col_patterns_tested := patterns_tested s;
     col_patterns_validated := patterns_validated s |}.

Definition validate_lead (lead : Lead) : option ValidatedRecord :=
  match lead_patterns lead with
  | None => None
  | Some unique_patterns =>
      Some (build_record (strip (first_name lead)) (strip (last_name lead))
              (strip (company_domain lead)) (search unique_patterns))
  end.

(** [_validate_leads]: one record per lead that is not skipped. *)
Definition _validate_leads (leads_df : list Lead) : list ValidatedRecord :=
  omap validate_lead leads_df.

End Pipeline.

(** ** A runtime to evaluate the examples

    Python's Unicode database restricted to Basic Latin and the acute and
    tilde letters of Latin-1 the examples use; on these code points it
    agrees with CPython. *)

Definition basic_lower (s : pystr) : pystr :=
  map (λ c, if (65 <=? c)%N && (c <=? 90)%N then (c + 32)%N else c) s.

Definition basic_isspace (c : codepoint) : bool :=
  ((9 <=? c)%N && (c <=? 13)%N) || ((28 <=? c)%N && (c <=? 32)%N).

(** Canonical decompositions: á é í ó ú are the base letter and U+0301,
    ñ is n and U+0303. *)
Definition basic_decompose (c : codepoint) : pystr :=
  match c with
  | 225 => [97; 769]
  | 233 => [101; 769]
  | 237 => [105; 769]
  | 243 => [111; 769]
  | 250 => [117; 769]
  | 241 => [110; 771]
  | _ => [c]
  end%N.

Definition basic_NFD (s : pystr) : pystr := flat_map basic_decompose s.

(** The block of combining diacritical marks, U+0300 to U+036F. *)
Definition basic_Mn (c : codepoint) : bool :=
  (768 <=? c)%N && (c <=? 879)%N.

(** ** Facts about CPython's Unicode database that the examples rely on *)

Definition is_ascii (s : pystr) : Prop := Forall (λ c, (c < 128)%N) s.

Global Instance is_ascii_dec s : Decision (is_ascii s).
Proof. unfold is_ascii. apply _. Defined.

(** On a string of ASCII characters [str.lower] maps [A-Z] to [a-z] and
    leaves the rest. *)
Definition lower_on_ascii (str_lower : pystr → pystr) : Prop :=
  ∀ s, is_ascii s → str_lower s = basic_lower s.

(** The ASCII characters [str.isspace] accepts are the tab to carriage
    return, the four separators U+001C to U+001F, and the space. *)
Definition isspace_on_ascii (isspace : codepoint → bool) : Prop :=
  ∀ c, (c < 128)%N → isspace c = basic_isspace c.

(** White space has no case: [str.lower] leaves a string of white space
    as it is. *)
Definition lower_on_space (str_lower : pystr → pystr)
    (isspace : codepoint → bool) : Prop :=
  ∀ s, Forall (λ c, isspace c = true) s → str_lower s = s.

(** ** The specification's wording *)

(** The substring before the first occurrence of [sep]. *)
Fixpoint before_first (sep : codepoint) (s : pystr) : pystr :=
  match s with
  | [] => []
  | c :: s' => if decide (c = sep) then [] else c :: before_first sep s'
  end.

(** The nine local parts of section 4.2, in priority order; [first[0]]
    is the first character. *)
Definition local_parts (first last : pystr) : list pystr :=
  [ first;
    first ++ u "." ++ last;
    first ++ last;
    take 1 first ++ u "." ++ last;
    take 1 first ++ last;
    first ++ u "_" ++ last;
    first ++ u "-" ++ last;
    first ++ u "." ++ take 1 last;
    last ++ u "." ++ first ].

(** [<local-part>@<domain>] *)
Definition address (domain local : pystr) : pystr :=
  local ++ u "@" ++ domain.

(** "María" and "José". *)
Definition Maria_accented : pystr := u "Mar" ++ [237%N] ++ u "a".
Definition Jose_accented : pystr := u "Jos" ++ [233%N].

(** A lead with a hyphenated first name. *)
Definition Jean_Pierre_Dupont : Lead :=
  {| first_name := u "Jean-Pierre"; last_name := u "Dupont";
     company_domain := u "acme.com" |}.

(** ** The search loop seen from outside *)

Section Oracle.
Variable REACHER_API_URL : pystr.
Variable requests_post : pystr → pystr → PostOutcome.

(** The [result] the loop holds for a candidate. *)
Definition reply (pattern : pystr) : ReacherResult :=
  set_email (validate_email REACHER_API_URL requests_post pattern) pattern.

(** [reachability] and [smtp_deliverable] of section 3. *)
Definition reachability (pattern : pystr) : pystr := status_of (reply pattern).
Definition is_hit (pattern : pystr) : bool := deliverable_of (reply pattern).

Definition safe_hit (pattern : pystr) : bool :=
  is_hit pattern && bool_decide (reachability pattern = u "safe").
Definition risky_hit (pattern : pystr) : bool :=
  is_hit pattern && bool_decide (reachability pattern = u "risky").

(** The candidates up to and including the first safe hit. *)
Fixpoint tested_prefix (patterns : list pystr) : list pystr :=
  match patterns with
  | [] => []
  | pattern :: rest =>
      if safe_hit pattern then [pattern] else pattern :: tested_prefix rest
  end.

(** "A valid hit": the state holds nothing, or a candidate together
    with the reply it got, which is deliverable and is not invalid. *)
Definition best_is_valid_hit (s : SearchState) : Prop :=
  match best_email s, best_status s, best_result s with
  | None, None, None => True
  | Some pattern, Some status, Some result =>
      result = reply pattern
      ∧ deliverable_of result = true
      ∧ status_of result ≠ u "invalid"
      ∧ status = status_of result
      ∧ (status = u "safe" ∨ status = u "risky")
  | _, _, _ => False
  end.

(** "The deliverable results are all risky." *)
Definition all_risky (patterns : list pystr) : Prop :=
  Forall (λ pattern, is_hit pattern = true → reachability pattern = u "risky")
    patterns.

(** The state after the oracle call and the update of the counters. *)
Definition counted (pattern_idx : nat) (pattern : pystr) (s : SearchState)
    : SearchState :=
  let s := log (EvValidate pattern) (set_patterns_tested pattern_idx s) in
  if is_hit pattern then incr_patterns_validated s else s.

Variable INCLUDE_RISKY : bool.

(** The [elif status == "risky" and best_status != "safe"] branch. *)
Definition risky_update (pattern : pystr) (s : SearchState) : SearchState :=
  if risky_hit pattern && bool_decide (best_status s ≠ Some (u "safe"))
     && INCLUDE_RISKY
  then set_best pattern (u "risky") (reply pattern) s
  else s.
End Oracle.

(** What the loop holds as its best candidate. *)
Definition best (s : SearchState)
    : option pystr * option pystr * option ReacherResult :=
  (best_email s, best_status s, best_result s).

(** One call to the oracle per candidate, with a delay between two
    consecutive calls and nowhere else. *)
Fixpoint sleep_between (calls : list pystr) : list Event :=
  match calls with
  | [] => []
  | [pattern] => [EvValidate pattern]
  | pattern :: rest => EvValidate pattern :: EvSleep :: sleep_between rest
  end.

(** The candidates passed to the oracle, in order. *)
Definition calls (tr : list Event) : list pystr :=
  omap (λ e, match e with EvValidate pattern => Some pattern | EvSleep => None end) tr.

(** The number of delays applied. *)
Definition sleeps (tr : list Event) : nat :=
  length (filter (λ e, e = EvSleep) tr).

(** ** An oracle to evaluate the examples *)

Definition deliverable_reply (status : pystr) : ReacherResult :=
  {| is_reachable := Some status;
     smtp := Some {| is_deliverable := Some true;
                     smtp_can_connect_smtp := Some true |};
     misc := Some {| is_disposable := Some false;
                     is_role_account := Some false |};
     mx := Some {| records := Some [u "mx1.x.com"; u "mx2.x.com"] |};
     is_reachable_smtp := None; can_connect_smtp := None;
     error := None; email := None |}.

Definition undeliverable_reply : ReacherResult :=
  {| is_reachable := Some (u "invalid");
     smtp := Some {| is_deliverable := Some false;
                     smtp_can_connect_smtp := Some true |};
     misc := None; mx := None;
     is_reachable_smtp := None; can_connect_smtp := None;
     error := None; email := None |}.

(** [a@x.com] and [a2@x.com] are risky, [b@x.com] and [c@x.com] are safe,
    the request for [down@x.com] times out, every other address is
    invalid. *)
Definition example_post (endpoint to_email : pystr) : PostOutcome :=
  if bool_decide (to_email = u "a@x.com") then Json (deliverable_reply (u "risky"))
  else if bool_decide (to_email = u "a2@x.com") then Json (deliverable_reply (u "risky"))
  else if bool_decide (to_email = u "b@x.com") then Json (deliverable_reply (u "safe"))
  else if bool_decide (to_email = u "c@x.com") then Json (deliverable_reply (u "safe"))
  else if bool_decide (to_email = u "down@x.com") then RequestException (u "Read timed out.")
  else Json undeliverable_reply.

Definition example_url : pystr := u "http://localhost:8080/".

(** * Properties *)

(** ** Removing duplicates *)

Section Unique.
Context `{Countable A}.
Implicit Types (xs unique : list A) (seen : gset A).

Lemma first_seen_filter (P : A → Prop) `{!∀ x, Decision (P x)} xs :
  first_seen (filter P xs) = filter P (first_seen xs).
Proof.
  induction xs as [|y xs IH]; [done|]. simpl.
  destruct (decide (P y)) as [Hy|Hy].
  - rewrite !filter_cons_True by done. simpl. rewrite IH.
    rewrite !list_filter_filter. f_equal. apply list_filter_iff. naive_solver.
  - rewrite !filter_cons_False by done. rewrite IH.
    rewrite list_filter_filter. apply list_filter_iff.
    intros x. split; [|naive_solver]. intros Hx. split; [done|congruence].
Qed.

Lemma unique_loop_first_seen xs seen unique :
  unique_loop xs seen unique
  = unique ++ first_seen (filter (λ x, x ∉ seen) xs).
Proof.
  revert seen unique. induction xs as [|x xs IH]; intros seen unique; simpl.
  - by rewrite app_nil_r.
  - destruct (decide (x ∈ seen)) as [Hx|Hx].
    + rewrite filter_cons_False by naive_solver. apply IH.
    + rewrite filter_cons_True by done. rewrite IH. simpl.
      rewrite <- app_assoc. simpl. do 2 f_equal.
      rewrite <- first_seen_filter. f_equal.
      rewrite list_filter_filter. apply list_filter_iff. set_solver.
Qed.

(** The loop with a [seen] set computes [first_seen]. *)
Lemma unique_preserving_order_first_seen xs :
  unique_preserving_order xs = first_seen xs.
Proof.
  unfold unique_preserving_order. rewrite unique_loop_first_seen. simpl.
  f_equal. induction xs as [|x xs IH]; [done|].
  rewrite filter_cons_True by set_solver. by rewrite IH.
Qed.

Lemma elem_of_first_seen xs x : x ∈ first_seen xs ↔ x ∈ xs.
Proof.
  induction xs as [|y xs IH]; [done|]. simpl.
  rewrite !elem_of_cons, list_elem_of_filter, IH.
  destruct (decide (x = y)); naive_solver.
Qed.

Lemma NoDup_first_seen xs : NoDup (first_seen xs).
Proof.
  induction xs as [|y xs IH]; simpl; [constructor|].
  constructor; [|by apply NoDup_filter].
  rewrite list_elem_of_filter. naive_solver.
Qed.

Lemma first_seen_sublist xs : first_seen xs `sublist_of` xs.
Proof.
  induction xs as [|y xs IH]; simpl; [done|].
  apply sublist_skip. etrans; [apply sublist_filter|done].
Qed.

End Unique.

(** ** Strings *)

Lemma py_split_hd sep s : hd [] (py_split sep s) = before_first sep s.
Proof.
  induction s as [|c s IH]; [done|]. simpl.
  destruct (decide (c = sep)); [done|].
  destruct (py_split sep s) as [|w ws]; simpl in *; by rewrite <- IH.
Qed.

Lemma py_split_nonempty sep s : py_split sep s ≠ [].
Proof.
  destruct s as [|c s]; [done|]. simpl.
  destruct (decide (c = sep)); [done|]. by destruct (py_split sep s).
Qed.

Lemma py_not_true {A} (s : list A) : py_not s = true ↔ s = [].
Proof. by destruct s. Qed.

Lemma py_not_false {A} (s : list A) : py_not s = false ↔ s ≠ [].
Proof. by destruct s. Qed.

Lemma drop_while_nil_iff {A} (p : A → bool) l :
  drop_while p l = [] ↔ Forall (λ x, p x = true) l.
Proof.
  induction l as [|x l IH]; simpl; [by split; [constructor|]|].
  destruct (p x) eqn:Hx.
  - rewrite IH. split; [by constructor|by inversion 1].
  - split; [done|]. inversion 1; congruence.
Qed.

Lemma drop_while_all_iff {A} (p : A → bool) l :
  Forall (λ x, p x = true) (drop_while p l) ↔ Forall (λ x, p x = true) l.
Proof.
  induction l as [|x l IH]; simpl; [done|].
  destruct (p x) eqn:Hx; [|done].
  rewrite IH. split; [by constructor|by inversion 1].
Qed.

Lemma drop_while_ext {A} (p q : A → bool) l :
  Forall (λ x, p x = q x) l → drop_while p l = drop_while q l.
Proof.
  induction 1 as [|x l Hx Hl IH]; simpl; [done|]. rewrite Hx, IH. done.
Qed.

Lemma drop_while_suffix {A} (p : A → bool) l : drop_while p l `suffix_of` l.
Proof.
  induction l as [|x l IH]; simpl; [done|].
  destruct (p x); [by apply suffix_cons_r|done].
Qed.

Lemma py_slice_to_nonneg {A} (k : Z) (l : list A) :
  (0 ≤ k)%Z → py_slice_to k l = take (Z.to_nat k) l.
Proof. intros Hk. unfold py_slice_to. by rewrite (proj2 (Z.leb_le 0 k) Hk). Qed.

Section Strip.
Variable isspace : codepoint → bool.

Lemma strip_nil_iff s :
  strip isspace s = [] ↔ Forall (λ c, isspace c = true) s.
Proof.
  unfold strip, rstrip, lstrip.
  rewrite <- (reverse_involutive []), (inj_iff reverse).
  change (reverse []) with (@nil N).
  rewrite drop_while_nil_iff, Forall_reverse, drop_while_all_iff. done.
Qed.

Lemma strip_ascii s :
  isspace_on_ascii isspace → is_ascii s →
  strip isspace s = strip basic_isspace s.
Proof.
  intros Hsp Hs. unfold strip, rstrip, lstrip.
  assert (Hext : ∀ l : pystr, is_ascii l →
            drop_while isspace l = drop_while basic_isspace l).
  { intros l Hl. apply drop_while_ext. eapply Forall_impl; [exact Hl|].
    intros c Hc. by apply Hsp. }
  rewrite (Hext s Hs). rewrite Hext; [done|].
  apply Forall_reverse.
  destruct (drop_while_suffix basic_isspace s) as [k Hk].
  unfold is_ascii in Hs. rewrite Hk in Hs. by apply Forall_app in Hs as [_ ?].
Qed.
End Strip.

Lemma basic_lower_ascii s : is_ascii s → is_ascii (basic_lower s).
Proof.
  unfold is_ascii, basic_lower. intros Hs. apply Forall_fmap.
  eapply Forall_impl; [exact Hs|]. intros c Hc. simpl.
  destruct (_ && _) eqn:Hup; [|done].
  apply andb_true_iff in Hup as [_ Hle]. apply N.leb_le in Hle. lia.
Qed.

(** Closed goals over concrete strings are settled by evaluation. *)
Ltac by_eval := apply (bool_decide_unpack _); vm_compute; exact I.

(** ** Name variants *)

Lemma has_non_ascii_iff s :
  has_non_ascii s = true ↔ ∃ c, c ∈ s ∧ (127 < c)%N.
Proof.
  unfold has_non_ascii. rewrite existsb_exists.
  split; intros (c & Hin & Hc); exists c.
  - split; [by apply list_elem_of_In|by apply N.ltb_lt].
  - split; [by apply list_elem_of_In|by apply N.ltb_lt].
Qed.

(** C5. [generate_name_variants] returns, with duplicates removed and the
    first occurrence kept, the pair as given, the pair with the hyphens of
    [first] removed, the pair with [first] cut before its first hyphen,
    and then the accent-folded pair exactly when [first + last] has a
    character above 127.  With the canonical decompositions of í and é and
    U+0301 a nonspacing mark, ("María", "José") has the variant
    ("Maria", "Jose"). *)
Theorem generate_name_variants_spec
    (normalize_NFD : pystr → pystr) (category_Mn : codepoint → bool)
    (first last : pystr) :
  normalize_NFD Maria_accented = u "Mari" ++ [769%N] ++ u "a" →
  normalize_NFD Jose_accented = u "Jose" ++ [769%N] →
  category_Mn 769%N = true →
  (∀ c, (c < 128)%N → category_Mn c = false) →
  generate_name_variants normalize_NFD category_Mn first last
  = first_seen
      ([ (first, last);
         (filter (λ c, c ≠ hyphen) first, last);
         (before_first hyphen first, last) ]
       ++ if has_non_ascii (first ++ last)
          then [ (filter (λ c, category_Mn c = false) (normalize_NFD first),
                  filter (λ c, category_Mn c = false) (normalize_NFD last)) ]
          else [])
  ∧ NoDup (generate_name_variants normalize_NFD category_Mn first last)
  ∧ (has_non_ascii (first ++ last) = true
     ↔ ∃ c, c ∈ first ++ last ∧ (127 < c)%N)
  ∧ generate_name_variants normalize_NFD category_Mn
      Maria_accented Jose_accented
    = [ (Maria_accented, Jose_accented); (u "Maria", u "Jose") ].
Proof.
  intros HM HJ Hmark Hplain.
  assert (Hgen : ∀ f l,
    generate_name_variants normalize_NFD category_Mn f l
    = first_seen
        ([ (f, l); (filter (λ c, c ≠ hyphen) f, l); (before_first hyphen f, l) ]
         ++ if has_non_ascii (f ++ l)
            then [ (filter (λ c, category_Mn c = false) (normalize_NFD f),
                    filter (λ c, category_Mn c = false) (normalize_NFD l)) ]
            else [])).
  { intros f l. unfold generate_name_variants, fold_accents, py_remove_char.
    rewrite py_split_hd.
    destruct (has_non_ascii (f ++ l));
      by rewrite unique_preserving_order_first_seen. }
  split; [apply Hgen|]. split; [rewrite Hgen; apply NoDup_first_seen|].
  split; [apply has_non_ascii_iff|].
  rewrite Hgen.
  replace (has_non_ascii (Maria_accented ++ Jose_accented)) with true
    by (vm_compute; reflexivity).
  rewrite HM, HJ.
  assert (Hfold_M : filter (λ c, category_Mn c = false)
                      (u "Mari" ++ [769%N] ++ u "a") = u "Maria").
  { cbn [u app]. rewrite !filter_cons, Hmark.
    rewrite !Hplain by (vm_compute; reflexivity). simpl.
    destruct (decide (true = false)); [done|]. reflexivity. }
  assert (Hfold_J : filter (λ c, category_Mn c = false)
                      (u "Jose" ++ [769%N]) = u "Jose").
  { cbn [u app]. rewrite !filter_cons, Hmark.
    rewrite !Hplain by (vm_compute; reflexivity). simpl.
    destruct (decide (true = false)); [done|]. reflexivity. }
  rewrite Hfold_M, Hfold_J. vm_compute. reflexivity.
Qed.

Lemma generate_name_variants_spec_witness :
  generate_name_variants basic_NFD basic_Mn (u "Jean-Pierre") (u "Dupont")
  = [ (u "Jean-Pierre", u "Dupont"); (u "JeanPierre", u "Dupont");
      (u "Jean", u "Dupont") ]
  ∧ generate_name_variants basic_NFD basic_Mn Maria_accented Jose_accented
    = [ (Maria_accented, Jose_accented); (u "Maria", u "Jose") ].
Proof.
  assert (Hplain : ∀ c, (c < 128)%N → basic_Mn c = false).
  { intros c Hc. unfold basic_Mn. apply andb_false_iff. left.
    apply N.leb_gt. lia. }
  destruct (generate_name_variants_spec basic_NFD basic_Mn
              (u "Jean-Pierre") (u "Dupont")
              eq_refl eq_refl eq_refl Hplain) as (Hgen & _ & _ & Hex).
  split; [|exact Hex].
  rewrite Hgen. vm_compute. reflexivity.
Defined.

(** ** Pattern generation *)

Lemma patterns_of_local_parts first last domain :
  patterns_of first last domain = address domain <$> local_parts first last.
Proof.
  unfold patterns_of, local_parts, address. cbn [fmap list_fmap].
  by rewrite <- !(assoc_L (++)).
Qed.

Section Patterns.
Variable str_lower : pystr → pystr.
Variable isspace : codepoint → bool.
Variable MAX_PATTERNS_PER_LEAD : Z.

Local Abbreviation patterns :=
  (generate_email_patterns str_lower isspace MAX_PATTERNS_PER_LEAD).

Lemma generate_email_patterns_nonempty first_name last_name domain :
  strip isspace (str_lower first_name) ≠ [] →
  strip isspace (str_lower last_name) ≠ [] →
  domain ≠ [] →
  patterns first_name last_name domain
  = py_slice_to MAX_PATTERNS_PER_LEAD
      (first_seen (address domain <$>
         local_parts (strip isspace (str_lower first_name))
                     (strip isspace (str_lower last_name)))).
Proof.
  intros Hf Hl Hd. unfold generate_email_patterns.
  apply py_not_false in Hf, Hl, Hd. rewrite Hf, Hl, Hd. simpl.
  by rewrite unique_preserving_order_first_seen, patterns_of_local_parts.
Qed.

Lemma generate_email_patterns_empty first_name last_name domain :
  strip isspace (str_lower first_name) = []
  ∨ strip isspace (str_lower last_name) = []
  ∨ domain = [] →
  patterns first_name last_name domain = [].
Proof.
  intros Hempty. unfold generate_email_patterns.
  destruct Hempty as [H|[H|H]]; apply py_not_true in H; rewrite H;
    by rewrite ?orb_true_r.
Qed.

(** On ASCII names the result does not depend on the rest of the
    Unicode database. *)
Lemma generate_email_patterns_ascii first_name last_name domain :
  lower_on_ascii str_lower → isspace_on_ascii isspace →
  is_ascii first_name → is_ascii last_name →
  patterns first_name last_name domain
  = generate_email_patterns basic_lower basic_isspace
      MAX_PATTERNS_PER_LEAD first_name last_name domain.
Proof.
  intros Hlow Hsp Hf Hl. unfold generate_email_patterns.
  rewrite !Hlow by done.
  by rewrite !(strip_ascii isspace) by auto using basic_lower_ascii.
Qed.
End Patterns.

Lemma basic_lower_on_ascii : lower_on_ascii basic_lower.
Proof. by intros s _. Qed.

Lemma basic_isspace_on_ascii : isspace_on_ascii basic_isspace.
Proof. by intros c _. Qed.

Lemma basic_lower_on_space : lower_on_space basic_lower basic_isspace.
Proof.
  intros s Hs. unfold basic_lower.
  induction Hs as [|c s Hc Hs IH]; [done|]. cbn [map]. rewrite IH. f_equal.
  unfold basic_isspace in Hc.
  destruct ((65 <=? c)%N && (c <=? 90)%N) eqn:Hup; [|done]. exfalso.
  apply andb_true_iff in Hup as [Hlo _]. apply N.leb_le in Hlo.
  apply orb_true_iff in Hc as [Hc|Hc]; apply andb_true_iff in Hc as [_ Hc];
    apply N.leb_le in Hc; lia.
Qed.

(** C3. When [first] and [last] are not empty once lower-cased and
    trimmed, and [domain] is not empty, [generate_email_patterns] returns
    the nine addresses [local@domain] of the priority list, duplicates
    removed with the first occurrence kept, cut to the first
    [MAX_PATTERNS_PER_LEAD] entries (a count, so not negative).  For
    "john", "smith" and "acme.com" these are john@, john.smith@,
    johnsmith@, j.smith@ and so on. *)
Theorem generate_email_patterns_priority_order
    (str_lower : pystr → pystr) (isspace : codepoint → bool)
    (MAX_PATTERNS_PER_LEAD : Z) (first_name last_name domain : pystr) :
  (0 ≤ MAX_PATTERNS_PER_LEAD)%Z →
  lower_on_ascii str_lower → isspace_on_ascii isspace →
  strip isspace (str_lower first_name) ≠ [] →
  strip isspace (str_lower last_name) ≠ [] →
  domain ≠ [] →
  generate_email_patterns str_lower isspace MAX_PATTERNS_PER_LEAD
    first_name last_name domain
  = take (Z.to_nat MAX_PATTERNS_PER_LEAD)
      (first_seen (address domain <$>
         local_parts (strip isspace (str_lower first_name))
                     (strip isspace (str_lower last_name))))
  ∧ length (generate_email_patterns str_lower isspace MAX_PATTERNS_PER_LEAD
              first_name last_name domain)
    ≤ Z.to_nat MAX_PATTERNS_PER_LEAD
  ∧ NoDup (generate_email_patterns str_lower isspace MAX_PATTERNS_PER_LEAD
             first_name last_name domain)
  ∧ generate_email_patterns str_lower isspace MAX_PATTERNS_PER_LEAD
      (u "john") (u "smith") (u "acme.com")
    = take (Z.to_nat MAX_PATTERNS_PER_LEAD)
        [ u "john@acme.com"; u "john.smith@acme.com"; u "johnsmith@acme.com";
          u "j.smith@acme.com"; u "jsmith@acme.com"; u "john_smith@acme.com";
          u "john-smith@acme.com"; u "john.s@acme.com";
          u "smith.john@acme.com" ].
Proof.
  intros Hmax Hlow Hsp Hf Hl Hd.
  rewrite generate_email_patterns_nonempty by done.
  rewrite py_slice_to_nonneg by done.
  split; [done|]. split; [rewrite length_take; lia|].
  split.
  { eapply sublist_NoDup; [apply NoDup_first_seen|apply sublist_take]. }
  rewrite generate_email_patterns_ascii by (done || by_eval).
  unfold generate_email_patterns.
  rewrite py_slice_to_nonneg by done. f_equal.
Qed.

Lemma generate_email_patterns_priority_order_witness :
  generate_email_patterns basic_lower basic_isspace 20
    (u "John") (u " Smith ") (u "acme.com")
  = [ u "john@acme.com"; u "john.smith@acme.com"; u "johnsmith@acme.com";
      u "j.smith@acme.com"; u "jsmith@acme.com"; u "john_smith@acme.com";
      u "john-smith@acme.com"; u "john.s@acme.com"; u "smith.john@acme.com" ]
  ∧ generate_email_patterns basic_lower basic_isspace 2
      (u "john") (u "smith") (u "acme.com")
    = [ u "john@acme.com"; u "john.smith@acme.com" ].
Proof.
  assert (Hmax : ∀ k, (0 <= Z.of_nat k)%Z) by lia.
  assert (Hf : strip basic_isspace (basic_lower (u "John")) ≠ [])
    by (vm_compute; congruence).
  assert (Hl : strip basic_isspace (basic_lower (u " Smith ")) ≠ [])
    by (vm_compute; congruence).
  assert (Hd : u "acme.com" ≠ []) by (vm_compute; congruence).
  split.
  - pose proof (generate_email_patterns_priority_order basic_lower
                  basic_isspace 20 (u "John") (u " Smith ") (u "acme.com")
                  (Hmax 20) basic_lower_on_ascii basic_isspace_on_ascii
                  Hf Hl Hd) as (Heq & _).
    rewrite Heq. vm_compute. reflexivity.
  - pose proof (generate_email_patterns_priority_order basic_lower
                  basic_isspace 2 (u "John") (u " Smith ") (u "acme.com")
                  (Hmax 2) basic_lower_on_ascii basic_isspace_on_ascii
                  Hf Hl Hd) as (_ & _ & _ & Hex).
    exact Hex.
Defined.

(** C4 as worded fails on the domain: [generate_email_patterns] tests
    [domain] as it is given, so a domain of one space yields addresses. *)
Lemma whitespace_domain_counterexample :
  strip basic_isspace (u " ") = []
  ∧ generate_email_patterns basic_lower basic_isspace 20
      (u "john") (u "smith") (u " ")
    = [ u "john@ "; u "john.smith@ "; u "johnsmith@ "; u "j.smith@ ";
        u "jsmith@ "; u "john_smith@ "; u "john-smith@ "; u "john.s@ ";
        u "smith.john@ " ].
Proof. split; vm_compute; reflexivity. Qed.

(** C4, amended. [generate_email_patterns] returns the empty list when
    [first] or [last] is empty after trimming, or [domain] is the empty
    string; the domain is trimmed by the caller, which skips a lead
    whose first name, last name or domain is empty after trimming. *)
Theorem generate_email_patterns_empty_input
    (str_lower : pystr → pystr) (isspace : codepoint → bool)
    (normalize_NFD : pystr → pystr) (category_Mn : codepoint → bool)
    (MAX_PATTERNS_PER_LEAD : Z) (first last domain : pystr) (lead : Lead) :
  lower_on_space str_lower isspace →
  (strip isspace first = [] ∨ strip isspace last = [] ∨ domain = [] →
   generate_email_patterns str_lower isspace MAX_PATTERNS_PER_LEAD
     first last domain = [])
  ∧ (strip isspace (first_name lead) = []
     ∨ strip isspace (last_name lead) = []
     ∨ strip isspace (company_domain lead) = [] →
     lead_patterns str_lower isspace normalize_NFD category_Mn
       MAX_PATTERNS_PER_LEAD lead = None).
Proof.
  intros Hlow. split.
  - intros Hempty. apply generate_email_patterns_empty.
    destruct Hempty as [Hf|[Hl|Hd]]; [left|right; left|right; right; done].
    + rewrite Hlow; [done|]. by apply strip_nil_iff.
    + rewrite Hlow; [done|]. by apply strip_nil_iff.
  - intros Hempty. unfold lead_patterns.
    destruct Hempty as [H|[H|H]]; apply py_not_true in H; rewrite H;
      by rewrite ?orb_true_r.
Qed.

Lemma generate_email_patterns_empty_input_witness :
  generate_email_patterns basic_lower basic_isspace 20
    (u "  ") (u "smith") (u "acme.com") = []
  ∧ lead_patterns basic_lower basic_isspace basic_NFD basic_Mn 20
      {| first_name := u "john"; last_name := u "smith";
         company_domain := u " " |} = None.
Proof.
  split.
  - apply (generate_email_patterns_empty_input basic_lower basic_isspace
             basic_NFD basic_Mn 20 (u "  ") (u "smith") (u "acme.com")
             Jean_Pierre_Dupont basic_lower_on_space).
    left. vm_compute. reflexivity.
  - apply (generate_email_patterns_empty_input basic_lower basic_isspace
             basic_NFD basic_Mn 20 (u "john") (u "smith") (u " ")
             {| first_name := u "john"; last_name := u "smith";
                company_domain := u " " |} basic_lower_on_space).
    right; right. vm_compute. reflexivity.
Defined.

(** ** The merged candidate list of a lead *)

Lemma lead_patterns_Some str_lower isspace normalize_NFD category_Mn
    MAX_PATTERNS_PER_LEAD lead unique_patterns :
  lead_patterns str_lower isspace normalize_NFD category_Mn
    MAX_PATTERNS_PER_LEAD lead = Some unique_patterns →
  unique_patterns
  = first_seen
      (flat_map
         (λ v, generate_email_patterns str_lower isspace
                 MAX_PATTERNS_PER_LEAD (fst v) (snd v)
                 (strip isspace (company_domain lead)))
         (generate_name_variants normalize_NFD category_Mn
            (strip isspace (first_name lead))
            (strip isspace (last_name lead)))).
Proof.
  unfold lead_patterns. destruct (_ || _); [done|].
  intros [= <-]. apply unique_preserving_order_first_seen.
Qed.

Lemma generate_email_patterns_length str_lower isspace MAX_PATTERNS_PER_LEAD
    first_name last_name domain :
  (0 ≤ MAX_PATTERNS_PER_LEAD)%Z →
  length (generate_email_patterns str_lower isspace MAX_PATTERNS_PER_LEAD
            first_name last_name domain)
  ≤ Z.to_nat MAX_PATTERNS_PER_LEAD.
Proof.
  intros Hmax. unfold generate_email_patterns.
  destruct (_ || _); simpl; [lia|].
  rewrite py_slice_to_nonneg by done. rewrite length_take. lia.
Qed.

(** On the lead Jean-Pierre Dupont, whose fields are ASCII, the candidate
    list does not depend on the rest of the Unicode database. *)
Lemma lead_patterns_Jean_Pierre_Dupont str_lower isspace normalize_NFD
    category_Mn MAX_PATTERNS_PER_LEAD :
  lower_on_ascii str_lower → isspace_on_ascii isspace →
  lead_patterns str_lower isspace normalize_NFD category_Mn
    MAX_PATTERNS_PER_LEAD Jean_Pierre_Dupont
  = lead_patterns basic_lower basic_isspace basic_NFD basic_Mn
      MAX_PATTERNS_PER_LEAD Jean_Pierre_Dupont.
Proof.
  intros Hlow Hsp. unfold lead_patterns, Jean_Pierre_Dupont.
  cbn [first_name last_name company_domain].
  rewrite !(strip_ascii isspace) by (done || by_eval).
  replace (strip basic_isspace (u "Jean-Pierre")) with (u "Jean-Pierre")
    by (vm_compute; reflexivity).
  replace (strip basic_isspace (u "Dupont")) with (u "Dupont")
    by (vm_compute; reflexivity).
  replace (strip basic_isspace (u "acme.com")) with (u "acme.com")
    by (vm_compute; reflexivity).
  replace (generate_name_variants normalize_NFD category_Mn
             (u "Jean-Pierre") (u "Dupont"))
    with [ (u "Jean-Pierre", u "Dupont"); (u "JeanPierre", u "Dupont");
           (u "Jean", u "Dupont") ]
    by (vm_compute; reflexivity).
  replace (generate_name_variants basic_NFD basic_Mn
             (u "Jean-Pierre") (u "Dupont"))
    with [ (u "Jean-Pierre", u "Dupont"); (u "JeanPierre", u "Dupont");
           (u "Jean", u "Dupont") ]
    by (vm_compute; reflexivity).
  cbn [flat_map fst snd py_not orb u].
  by rewrite !(generate_email_patterns_ascii str_lower isspace)
    by (done || by_eval).
Qed.

(** C10. The cap bounds the pattern list of each name variant; the
    merged list of a lead is the concatenation of these lists with
    duplicates removed, and is not cut again.  With the default cap of 20
    the lead Jean-Pierre Dupont at acme.com has three name variants and 23
    candidates, and it has more candidates than the cap for every cap from
    1 to 22. *)
Theorem cap_applies_per_variant
    (str_lower : pystr → pystr) (isspace : codepoint → bool)
    (normalize_NFD : pystr → pystr) (category_Mn : codepoint → bool) :
  lower_on_ascii str_lower → isspace_on_ascii isspace →
  (∀ MAX_PATTERNS_PER_LEAD first_name last_name domain,
     (0 ≤ MAX_PATTERNS_PER_LEAD)%Z →
     length (generate_email_patterns str_lower isspace MAX_PATTERNS_PER_LEAD
               first_name last_name domain)
     ≤ Z.to_nat MAX_PATTERNS_PER_LEAD)
  ∧ (∀ MAX_PATTERNS_PER_LEAD lead unique_patterns,
       lead_patterns str_lower isspace normalize_NFD category_Mn
         MAX_PATTERNS_PER_LEAD lead = Some unique_patterns →
       unique_patterns
       = first_seen
           (flat_map
              (λ v, generate_email_patterns str_lower isspace
                      MAX_PATTERNS_PER_LEAD (fst v) (snd v)
                      (strip isspace (company_domain lead)))
              (generate_name_variants normalize_NFD category_Mn
                 (strip isspace (first_name lead))
                 (strip isspace (last_name lead)))))
  ∧ length (generate_name_variants normalize_NFD category_Mn
              (u "Jean-Pierre") (u "Dupont")) = 3
  ∧ (∃ unique_patterns,
       lead_patterns str_lower isspace normalize_NFD category_Mn 20
         Jean_Pierre_Dupont = Some unique_patterns
       ∧ length unique_patterns = 23
       ∧ Z.to_nat 20 < length unique_patterns)
  ∧ (∀ MAX_PATTERNS_PER_LEAD,
       (1 ≤ MAX_PATTERNS_PER_LEAD ≤ 22)%Z →
       ∃ unique_patterns,
         lead_patterns str_lower isspace normalize_NFD category_Mn
           MAX_PATTERNS_PER_LEAD Jean_Pierre_Dupont = Some unique_patterns
         ∧ Z.to_nat MAX_PATTERNS_PER_LEAD < length unique_patterns).
Proof.
  intros Hlow Hsp.
  split; [intros; by apply generate_email_patterns_length|].
  split; [intros ???; apply lead_patterns_Some|].
  split; [vm_compute; reflexivity|].
  split.
  { rewrite lead_patterns_Jean_Pierre_Dupont by done.
    eexists. split; [vm_compute; reflexivity|].
    split; vm_compute; [reflexivity|lia]. }
  intros MAX_PATTERNS_PER_LEAD Hrange.
  rewrite lead_patterns_Jean_Pierre_Dupont by done.
  assert (∃ n, n < 22 ∧ MAX_PATTERNS_PER_LEAD = Z.of_nat (S n))
    as (n & Hn & ->) by (exists (Z.to_nat MAX_PATTERNS_PER_LEAD - 1); lia).
  do 22 (destruct n as [|n];
         [eexists; split; [vm_compute; reflexivity|vm_compute; lia]|]).
  lia.
Qed.

Lemma cap_applies_per_variant_witness :
  ∃ unique_patterns,
    lead_patterns basic_lower basic_isspace basic_NFD basic_Mn 20
      Jean_Pierre_Dupont = Some unique_patterns
    ∧ length unique_patterns = 23
    ∧ Z.to_nat 20 < length unique_patterns.
Proof.
  exact (proj1 (proj2 (proj2 (proj2 (cap_applies_per_variant basic_lower
           basic_isspace basic_NFD basic_Mn basic_lower_on_ascii
           basic_isspace_on_ascii))))).
Defined.

(** ** The search loop *)

Lemma sleep_between_cons pattern rest :
  rest ≠ [] →
  sleep_between (pattern :: rest)
  = EvValidate pattern :: EvSleep :: sleep_between rest.
Proof. by destruct rest. Qed.

Lemma calls_sleep_between l : calls (sleep_between l) = l.
Proof.
  induction l as [|p l IH]; [done|]. destruct l as [|q l]; [done|].
  rewrite sleep_between_cons by done.
  change (calls (EvValidate p :: EvSleep :: sleep_between (q :: l)))
    with (p :: calls (sleep_between (q :: l))).
  by rewrite IH.
Qed.

Lemma sleeps_sleep_between l : sleeps (sleep_between l) = length l - 1.
Proof.
  induction l as [|p l IH]; [done|]. destruct l as [|q l]; [done|].
  rewrite sleep_between_cons by done. unfold sleeps in *.
  rewrite filter_cons_False by done. rewrite filter_cons_True by done.
  cbn [length] in *. rewrite IH. lia.
Qed.

Lemma last_sleep_between l : last (sleep_between l) = EvValidate <$> last l.
Proof.
  induction l as [|p l IH]; [done|]. destruct l as [|q l]; [done|].
  rewrite sleep_between_cons by done.
  rewrite (last_cons (EvValidate p)), (last_cons EvSleep), IH.
  rewrite (last_cons p). destruct (last (q :: l)) eqn:Hlast; [done|].
  by apply last_None in Hlast.
Qed.

Section Search.
Variable INCLUDE_RISKY : bool.
Variable REACHER_API_URL : pystr.
Variable requests_post : pystr → pystr → PostOutcome.

Local Abbreviation reply := (reply REACHER_API_URL requests_post).
Local Abbreviation reachability := (reachability REACHER_API_URL requests_post).
Local Abbreviation is_hit := (is_hit REACHER_API_URL requests_post).
Local Abbreviation safe_hit := (safe_hit REACHER_API_URL requests_post).
Local Abbreviation risky_hit := (risky_hit REACHER_API_URL requests_post).
Local Abbreviation tested_prefix :=
  (tested_prefix REACHER_API_URL requests_post).
Local Abbreviation loop_body :=
  (loop_body INCLUDE_RISKY REACHER_API_URL requests_post).
Local Abbreviation for_loop :=
  (for_loop INCLUDE_RISKY REACHER_API_URL requests_post).
Local Abbreviation search :=
  (search INCLUDE_RISKY REACHER_API_URL requests_post).

Implicit Types (s : SearchState) (pattern : pystr) (patterns : list pystr).

Local Abbreviation counted := (counted REACHER_API_URL requests_post).
Local Abbreviation risky_update :=
  (risky_update REACHER_API_URL requests_post INCLUDE_RISKY).

(** [loop_body] by cases on the reply. *)
Lemma loop_body_cases total pattern_idx pattern s :
  loop_body total pattern_idx pattern s
  = if safe_hit pattern then
      (Break, set_best pattern (u "safe") (reply pattern)
                (counted pattern_idx pattern s))
    else
      (Continue, rate_limit total pattern_idx
                   (risky_update pattern (counted pattern_idx pattern s))).
Proof.
  unfold loop_body, safe_hit, risky_update, risky_hit, counted, is_hit,
    reachability, reply.
  set (r := set_email _ pattern).
  destruct (deliverable_of r) eqn:Hd; cbn [negb andb orb];
    [|by rewrite orb_true_r].
  rewrite orb_false_r.
  destruct (decide (status_of r = u "invalid")) as [Hinv|Hinv].
  { rewrite Hinv. by vm_compute bool_decide. }
  rewrite (bool_decide_eq_false_2 _ Hinv).
  destruct (decide (status_of r = u "safe")) as [Hsafe|Hsafe].
  { rewrite (bool_decide_eq_true_2 _ Hsafe). by rewrite Hsafe. }
  rewrite (bool_decide_eq_false_2 _ Hsafe).
  destruct (decide (status_of r = u "risky")) as [Hrisky|Hrisky].
  - rewrite (bool_decide_eq_true_2 _ Hrisky), Hrisky. cbn [andb].
    by destruct (bool_decide _), INCLUDE_RISKY.
  - by rewrite (bool_decide_eq_false_2 _ Hrisky).
Qed.

Lemma tested_prefix_nonempty pattern rest :
  tested_prefix (pattern :: rest) ≠ [].
Proof. simpl. by destruct (safe_hit pattern). Qed.

Lemma tested_prefix_no_safe patterns :
  Forall (λ pattern, safe_hit pattern = false) patterns →
  tested_prefix patterns = patterns.
Proof.
  induction 1 as [|pattern rest Hp _ IH]; [done|].
  simpl. by rewrite Hp, IH.
Qed.

Lemma tested_prefix_first_safe pre pattern post :
  Forall (λ pattern, safe_hit pattern = false) pre →
  safe_hit pattern = true →
  tested_prefix (pre ++ pattern :: post) = pre ++ [pattern].
Proof.
  intros Hpre Hsafe. induction Hpre as [|q pre Hq _ IH]; simpl.
  - by rewrite Hsafe.
  - by rewrite Hq, IH.
Qed.

Lemma tested_prefix_take patterns :
  tested_prefix patterns = take (length (tested_prefix patterns)) patterns.
Proof.
  induction patterns as [|pattern rest IH]; [done|]. simpl.
  destruct (safe_hit pattern); simpl; [by rewrite take_0|].
  by rewrite <- IH.
Qed.

(** Either every candidate is tested, or the last one tested is the
    first safe hit. *)
Lemma tested_prefix_end patterns :
  tested_prefix patterns = patterns
  ∨ ∃ pattern, last (tested_prefix patterns) = Some pattern
               ∧ safe_hit pattern = true.
Proof.
  induction patterns as [|pattern rest IH]; [by left|]. simpl.
  destruct (safe_hit pattern) eqn:Hsafe; [right; by exists pattern|].
  destruct IH as [->|(q & Hlast & Hq)]; [by left|].
  right. exists q. split; [|done]. rewrite last_cons. by rewrite Hlast.
Qed.

Lemma rate_limit_last total s : rate_limit total total s = s.
Proof. unfold rate_limit. case_decide; [lia|done]. Qed.

Lemma rate_limit_more total pattern_idx s :
  pattern_idx < total → rate_limit total pattern_idx s = log EvSleep s.
Proof. intros Hlt. unfold rate_limit. by case_decide. Qed.

Lemma for_loop_cons total pattern_idx pattern rest s :
  for_loop total pattern_idx (pattern :: rest) s
  = if safe_hit pattern then
      set_best pattern (u "safe") (reply pattern)
        (counted pattern_idx pattern s)
    else
      for_loop total (S pattern_idx) rest
        (rate_limit total pattern_idx
           (risky_update pattern (counted pattern_idx pattern s))).
Proof.
  change (for_loop total pattern_idx (pattern :: rest) s)
    with (match loop_body total pattern_idx pattern s with
          | (Break, s') => s'
          | (Continue, s') => for_loop total (S pattern_idx) rest s'
          end).
  rewrite loop_body_cases. by destruct (safe_hit pattern).
Qed.

Lemma counted_trace pattern_idx pattern s :
  trace (counted pattern_idx pattern s) = trace s ++ [EvValidate pattern].
Proof. unfold counted. by destruct (is_hit pattern). Qed.

Lemma counted_tested pattern_idx pattern s :
  patterns_tested (counted pattern_idx pattern s) = pattern_idx.
Proof. unfold counted. by destruct (is_hit pattern). Qed.

Lemma counted_validated pattern_idx pattern s :
  patterns_validated (counted pattern_idx pattern s)
  = patterns_validated s + (if is_hit pattern then 1 else 0).
Proof. unfold counted. destruct (is_hit pattern); simpl; lia. Qed.

Lemma risky_update_counters pattern s :
  trace (risky_update pattern s) = trace s
  ∧ patterns_tested (risky_update pattern s) = patterns_tested s
  ∧ patterns_validated (risky_update pattern s) = patterns_validated s.
Proof. unfold risky_update. by destruct (_ && _ && _). Qed.

Lemma rate_limit_state total pattern_idx s :
  best_email (rate_limit total pattern_idx s) = best_email s
  ∧ best_status (rate_limit total pattern_idx s) = best_status s
  ∧ best_result (rate_limit total pattern_idx s) = best_result s
  ∧ patterns_tested (rate_limit total pattern_idx s) = patterns_tested s
  ∧ patterns_validated (rate_limit total pattern_idx s)
    = patterns_validated s.
Proof. unfold rate_limit. by case_decide. Qed.

(** The effects and counters of a run, from any state. *)
Lemma for_loop_effects patterns total pattern_idx s :
  pattern_idx + length patterns = S total →
  trace (for_loop total pattern_idx patterns s)
  = trace s ++ sleep_between (tested_prefix patterns)
  ∧ patterns_validated (for_loop total pattern_idx patterns s)
    = patterns_validated s
      + length (filter (λ pattern, is_hit pattern = true)
                  (tested_prefix patterns))
  ∧ (patterns ≠ [] →
     patterns_tested (for_loop total pattern_idx patterns s)
     = pattern_idx + length (tested_prefix patterns) - 1).
Proof.
  revert pattern_idx s.
  induction patterns as [|pattern rest IH]; intros pattern_idx s Hlen.
  { simpl. rewrite app_nil_r. split; [done|]. split; [lia|done]. }
  cbn [length] in Hlen. rewrite for_loop_cons.
  simpl tested_prefix.
  destruct (safe_hit pattern) eqn:Hsafe.
  - assert (Hhit : is_hit pattern = true).
    { unfold safe_hit in Hsafe. by apply andb_true_iff in Hsafe as [? _]. }
    cbn [set_best trace patterns_validated patterns_tested].
    rewrite counted_trace, counted_validated, counted_tested, Hhit.
    rewrite filter_cons_True by done. simpl. split; [done|]. split; lia.
  - set (s1 := rate_limit _ _ _).
    destruct (IH (S pattern_idx) s1) as (Htr & Hval & Htest); [lia|].
    rewrite Htr, Hval.
    destruct (risky_update_counters pattern
                (counted pattern_idx pattern s)) as (Hrtr & Hrtest & Hrval).
    destruct (rate_limit_state total pattern_idx
                (risky_update pattern (counted pattern_idx pattern s)))
      as (_ & _ & _ & Hltest & Hlval).
    fold s1 in Hltest, Hlval.
    rewrite Hlval, Hrval, counted_validated.
    destruct rest as [|q rest].
    + assert (pattern_idx = total) as -> by (simpl in Hlen; lia).
      subst s1. rewrite rate_limit_last, Hrtr, counted_trace.
      simpl for_loop. rewrite Hrtest, counted_tested.
      simpl. rewrite app_nil_r.
      destruct (is_hit pattern) eqn:Hhit.
      * rewrite filter_cons_True by done. simpl. split; [done|]. split; lia.
      * rewrite filter_cons_False by congruence. simpl. split; [done|]. split; lia.
    + rewrite Htest by done.
      rewrite sleep_between_cons by apply tested_prefix_nonempty.
      subst s1. rewrite rate_limit_more by (simpl in Hlen; lia).
      cbn [log trace]. rewrite Hrtr, counted_trace.
      rewrite <- !app_assoc. cbn [app length].
      destruct (is_hit pattern) eqn:Hhit.
      * rewrite filter_cons_True by done. simpl. split; [done|]. split; lia.
      * rewrite filter_cons_False by congruence. simpl. split; [done|]. split; lia.
Qed.

(** *** What the loop holds *)

Lemma best_counted pattern_idx pattern s :
  best (counted pattern_idx pattern s) = best s.
Proof. unfold counted, best. by destruct (is_hit pattern). Qed.

Lemma best_rate_limit total pattern_idx s :
  best (rate_limit total pattern_idx s) = best s.
Proof. unfold rate_limit, best. by case_decide. Qed.

Lemma safe_hit_inv pattern :
  safe_hit pattern = true →
  is_hit pattern = true ∧ reachability pattern = u "safe".
Proof.
  unfold safe_hit. intros [? Hst]%andb_true_iff.
  by apply bool_decide_eq_true in Hst.
Qed.

Lemma risky_hit_inv pattern :
  risky_hit pattern = true →
  is_hit pattern = true ∧ reachability pattern = u "risky".
Proof.
  unfold risky_hit. intros [? Hst]%andb_true_iff.
  by apply bool_decide_eq_true in Hst.
Qed.

Lemma for_loop_first_safe pre pattern post total pattern_idx s :
  Forall (λ pattern, safe_hit pattern = false) pre →
  safe_hit pattern = true →
  best (for_loop total pattern_idx (pre ++ pattern :: post) s)
  = (Some pattern, Some (u "safe"), Some (reply pattern)).
Proof.
  intros Hpre Hsafe. revert pattern_idx s.
  induction Hpre as [|q pre Hq _ IH]; intros pattern_idx s.
  - cbn [app]. by rewrite for_loop_cons, Hsafe.
  - cbn [app]. rewrite for_loop_cons, Hq. apply IH.
Qed.

Local Abbreviation all_risky := (all_risky REACHER_API_URL requests_post).

Lemma all_risky_no_safe patterns :
  all_risky patterns → Forall (λ pattern, safe_hit pattern = false) patterns.
Proof.
  intros Hall. eapply Forall_impl; [exact Hall|].
  intros pattern Hrisky. cbn beta in Hrisky.
  destruct (safe_hit pattern) eqn:Hsafe; [|done].
  apply safe_hit_inv in Hsafe as [Hhit Hst].
  rewrite (Hrisky Hhit) in Hst. by vm_compute in Hst.
Qed.

Lemma all_risky_risky_hit pattern :
  (is_hit pattern = true → reachability pattern = u "risky") →
  risky_hit pattern = is_hit pattern.
Proof.
  intros Hrisky. unfold risky_hit.
  destruct (is_hit pattern); [|done].
  by rewrite (bool_decide_eq_true_2 _ (Hrisky eq_refl)).
Qed.

(** Without [INCLUDE_RISKY] a run without a safe hit leaves the best
    candidate as it was. *)
Lemma for_loop_risky_off patterns total pattern_idx s :
  INCLUDE_RISKY = false →
  Forall (λ pattern, safe_hit pattern = false) patterns →
  best (for_loop total pattern_idx patterns s) = best s.
Proof.
  intros Hoff Hno. revert pattern_idx s.
  induction Hno as [|pattern rest Hp _ IH]; intros pattern_idx s; [done|].
  rewrite for_loop_cons, Hp, IH, best_rate_limit.
  unfold risky_update. rewrite Hoff, andb_false_r. apply best_counted.
Qed.

(** With [INCLUDE_RISKY] and only risky hits, every hit replaces the
    candidate held, so the last hit is the one held at the end. *)
Lemma for_loop_risky_on patterns total pattern_idx s :
  INCLUDE_RISKY = true →
  all_risky patterns →
  best_status s ≠ Some (u "safe") →
  best (for_loop total pattern_idx patterns s)
  = match last (filter (λ pattern, is_hit pattern = true) patterns) with
    | Some pattern => (Some pattern, Some (u "risky"), Some (reply pattern))
    | None => best s
    end.
Proof.
  intros Hon Hall. revert pattern_idx s.
  induction Hall as [|pattern rest Hp Hrest IH];
    intros pattern_idx s Hstatus; [done|].
  assert (Hsafe : safe_hit pattern = false).
  { assert (Hno : all_risky [pattern]) by (by constructor).
    apply all_risky_no_safe in Hno. by inversion Hno. }
  rewrite for_loop_cons, Hsafe.
  set (s1 := rate_limit _ _ _).
  assert (Hs1 : best s1
            = if is_hit pattern
              then (Some pattern, Some (u "risky"), Some (reply pattern))
              else best s).
  { subst s1. rewrite best_rate_limit. unfold risky_update.
    rewrite (all_risky_risky_hit _ Hp), Hon, andb_true_r.
    pose proof (best_counted pattern_idx pattern s) as Hbc.
    unfold best in Hbc. injection Hbc as He Hs Hr.
    rewrite Hs. rewrite (bool_decide_eq_true_2 _ Hstatus), andb_true_r.
    destruct (is_hit pattern) eqn:Hhit; [done|].
    apply best_counted. }
  rewrite IH.
  - rewrite Hs1. destruct (is_hit pattern) eqn:Hhit.
    + rewrite filter_cons_True by done. rewrite last_cons.
      by destruct (last _).
    + by rewrite filter_cons_False by congruence.
  - assert (Hbs : best_status s1 = snd (fst (best s1))) by done.
    rewrite Hbs, Hs1. destruct (is_hit pattern); [by vm_compute|done].
Qed.

(** *** The invariant *)

Local Abbreviation best_is_valid_hit :=
  (best_is_valid_hit REACHER_API_URL requests_post).

Lemma best_is_valid_hit_ext s s' :
  best s' = best s → best_is_valid_hit s → best_is_valid_hit s'.
Proof. unfold best, best_is_valid_hit. by intros [= -> -> ->]. Qed.

Lemma set_best_valid pattern status s :
  is_hit pattern = true → reachability pattern = status →
  status = u "safe" ∨ status = u "risky" →
  best_is_valid_hit (set_best pattern status (reply pattern) s).
Proof.
  intros Hhit Hst Hor. unfold best_is_valid_hit.
  cbn [set_best best_email best_status best_result].
  unfold reachability, is_hit in *.
  split; [done|]. split; [exact Hhit|]. split; [|done].
  rewrite Hst. destruct Hor as [->| ->]; by vm_compute.
Qed.

Lemma loop_body_valid total pattern_idx pattern s :
  best_is_valid_hit s →
  best_is_valid_hit (snd (loop_body total pattern_idx pattern s)).
Proof.
  intros Hs. rewrite loop_body_cases.
  destruct (safe_hit pattern) eqn:Hsafe; cbn [snd].
  - apply safe_hit_inv in Hsafe as [Hhit Hst].
    apply set_best_valid; auto.
  - eapply best_is_valid_hit_ext; [apply best_rate_limit|].
    unfold risky_update.
    destruct (risky_hit pattern) eqn:Hrisky; cbn [andb];
      [|eapply best_is_valid_hit_ext; [apply best_counted|done]].
    destruct (_ && _);
      [|eapply best_is_valid_hit_ext; [apply best_counted|done]].
    apply risky_hit_inv in Hrisky as [Hhit Hst].
    apply set_best_valid; auto.
Qed.

Lemma for_loop_valid patterns total pattern_idx s :
  best_is_valid_hit s →
  best_is_valid_hit (for_loop total pattern_idx patterns s).
Proof.
  revert pattern_idx s.
  induction patterns as [|pattern rest IH]; intros pattern_idx s Hs; [done|].
  pose proof (loop_body_valid total pattern_idx pattern s Hs) as Hstep.
  change (for_loop total pattern_idx (pattern :: rest) s)
    with (match loop_body total pattern_idx pattern s with
          | (Break, s') => s'
          | (Continue, s') => for_loop total (S pattern_idx) rest s'
          end).
  destruct (loop_body total pattern_idx pattern s) as [[] s']; auto.
Qed.

Lemma for_loop_best_email patterns total pattern_idx s :
  best_email (for_loop total pattern_idx patterns s) = best_email s
  ∨ ∃ pattern, pattern ∈ patterns
      ∧ best_email (for_loop total pattern_idx patterns s) = Some pattern.
Proof.
  revert pattern_idx s.
  induction patterns as [|pattern rest IH]; intros pattern_idx s;
    [by left|].
  rewrite for_loop_cons. destruct (safe_hit pattern).
  { right. exists pattern. split; [left|done]. }
  set (s1 := rate_limit _ _ _).
  assert (Hs1 : best_email s1 = best_email s ∨ best_email s1 = Some pattern).
  { assert (He : best_email s1 = fst (fst (best s1))) by done.
    rewrite He. subst s1. rewrite best_rate_limit. unfold risky_update.
    destruct (_ && _ && _); [by right|left].
    by rewrite best_counted. }
  destruct (IH (S pattern_idx) s1) as [->|(q & Hq & ->)].
  - destruct Hs1 as [->| ->]; [by left|].
    right. exists pattern. split; [left|done].
  - right. exists q. split; [by right|done].
Qed.

(** *** A whole run *)

Lemma search_effects unique_patterns :
  trace (search unique_patterns)
  = sleep_between (tested_prefix unique_patterns)
  ∧ patterns_validated (search unique_patterns)
    = length (filter (λ pattern, is_hit pattern = true)
                (tested_prefix unique_patterns))
  ∧ patterns_tested (search unique_patterns)
    = length (tested_prefix unique_patterns).
Proof.
  unfold search.
  destruct (for_loop_effects unique_patterns (length unique_patterns) 1
              initial_state) as (Htr & Hval & Htest); [done|].
  split; [done|]. split; [done|].
  destruct unique_patterns as [|pattern rest]; [done|].
  rewrite Htest by done. lia.
Qed.

Lemma search_tested_prefix unique_patterns :
  tested_prefix unique_patterns
  = take (patterns_tested (search unique_patterns)) unique_patterns.
Proof.
  destruct (search_effects unique_patterns) as (_ & _ & ->).
  apply tested_prefix_take.
Qed.
End Search.

(** ** Properties of a run *)

(** C2. The loop stops at the first candidate whose reply is safe and
    deliverable: that candidate is the best one, [patterns_tested] is its
    position counted from 1, and the oracle has been called on the
    candidates up to it and on no other.  For [A; B; C] with A risky and
    deliverable and B safe and deliverable, the best candidate is B after
    two calls, and C is not called. *)
Theorem search_stops_at_first_safe
    (INCLUDE_RISKY : bool) (REACHER_API_URL : pystr)
    (requests_post : pystr → pystr → PostOutcome)
    (pre : list pystr) (pattern : pystr) (post : list pystr) :
  Forall (λ p, safe_hit REACHER_API_URL requests_post p = false) pre →
  safe_hit REACHER_API_URL requests_post pattern = true →
  best (search INCLUDE_RISKY REACHER_API_URL requests_post
          (pre ++ pattern :: post))
  = (Some pattern, Some (u "safe"),
     Some (reply REACHER_API_URL requests_post pattern))
  ∧ patterns_tested (search INCLUDE_RISKY REACHER_API_URL requests_post
                       (pre ++ pattern :: post))
    = length pre + 1
  ∧ calls (trace (search INCLUDE_RISKY REACHER_API_URL requests_post
                    (pre ++ pattern :: post)))
    = pre ++ [pattern]
  ∧ ∀ A B C,
      is_hit REACHER_API_URL requests_post A = true →
      reachability REACHER_API_URL requests_post A = u "risky" →
      is_hit REACHER_API_URL requests_post B = true →
      reachability REACHER_API_URL requests_post B = u "safe" →
      best_email (search INCLUDE_RISKY REACHER_API_URL requests_post [A; B; C])
      = Some B
      ∧ patterns_tested
          (search INCLUDE_RISKY REACHER_API_URL requests_post [A; B; C]) = 2
      ∧ calls (trace (search INCLUDE_RISKY REACHER_API_URL requests_post
                        [A; B; C]))
        = [A; B].
Proof.
  assert (Hgen : ∀ pre pattern post,
    Forall (λ p, safe_hit REACHER_API_URL requests_post p = false) pre →
    safe_hit REACHER_API_URL requests_post pattern = true →
    best (search INCLUDE_RISKY REACHER_API_URL requests_post
            (pre ++ pattern :: post))
    = (Some pattern, Some (u "safe"),
       Some (reply REACHER_API_URL requests_post pattern))
    ∧ patterns_tested (search INCLUDE_RISKY REACHER_API_URL requests_post
                         (pre ++ pattern :: post))
      = length pre + 1
    ∧ calls (trace (search INCLUDE_RISKY REACHER_API_URL requests_post
                      (pre ++ pattern :: post)))
      = pre ++ [pattern]).
  { clear. intros pre pattern post Hpre Hsafe.
    split; [by apply for_loop_first_safe|].
    destruct (search_effects INCLUDE_RISKY REACHER_API_URL requests_post
                (pre ++ pattern :: post)) as (-> & _ & ->).
    rewrite tested_prefix_first_safe by done.
    rewrite calls_sleep_between, length_app. done. }
  intros Hpre Hsafe. destruct (Hgen pre pattern post Hpre Hsafe) as (?&?&?).
  do 3 (split; [done|]).
  intros A B C HA HAr HB HBs.
  destruct (Hgen [A] B [C]) as (Hbest & Htest & Hcalls).
  - constructor; [|constructor]. unfold safe_hit. rewrite HA, HAr.
    by vm_compute.
  - unfold safe_hit. rewrite HB, HBs. by vm_compute.
  - split; [|done]. exact (f_equal (λ b, fst (fst b)) Hbest).
Qed.

Lemma search_stops_at_first_safe_witness :
  best_email (search true example_url example_post
                [u "a@x.com"; u "down@x.com"; u "b@x.com"; u "c@x.com"])
  = Some (u "b@x.com")
  ∧ patterns_tested (search true example_url example_post
                [u "a@x.com"; u "down@x.com"; u "b@x.com"; u "c@x.com"]) = 3
  ∧ calls (trace (search true example_url example_post
                [u "a@x.com"; u "down@x.com"; u "b@x.com"; u "c@x.com"]))
    = [u "a@x.com"; u "down@x.com"; u "b@x.com"].
Proof.
  assert (Hpre : Forall (λ p, safe_hit example_url example_post p = false)
                   [u "a@x.com"; u "down@x.com"]).
  { repeat constructor. }
  assert (Hsafe : safe_hit example_url example_post (u "b@x.com") = true).
  { vm_compute. reflexivity. }
  destruct (search_stops_at_first_safe true example_url example_post
              [u "a@x.com"; u "down@x.com"] (u "b@x.com") [u "c@x.com"]
              Hpre Hsafe) as (Hbest & Htest & Hcalls & _).
  split; [exact (f_equal (λ b, fst (fst b)) Hbest)|].
  split; [exact Htest|exact Hcalls].
Defined.

(** C8. In a run over a list that is not empty, the delay is applied
    between two consecutive oracle calls and nowhere else: the trace is
    the calls on the first [patterns_tested] candidates with one delay
    between neighbours, so there are [patterns_tested - 1] delays, the
    trace ends with an oracle call, and the run ends at the end of the
    list or at a safe hit. *)
Theorem rate_limit_between_calls
    (INCLUDE_RISKY : bool) (REACHER_API_URL : pystr)
    (requests_post : pystr → pystr → PostOutcome)
    (unique_patterns : list pystr) :
  unique_patterns ≠ [] →
  trace (search INCLUDE_RISKY REACHER_API_URL requests_post unique_patterns)
  = sleep_between
      (take (patterns_tested (search INCLUDE_RISKY REACHER_API_URL
                                requests_post unique_patterns))
         unique_patterns)
  ∧ 1 ≤ patterns_tested (search INCLUDE_RISKY REACHER_API_URL requests_post
                           unique_patterns)
      ≤ length unique_patterns
  ∧ sleeps (trace (search INCLUDE_RISKY REACHER_API_URL requests_post
                     unique_patterns))
    = patterns_tested (search INCLUDE_RISKY REACHER_API_URL requests_post
                         unique_patterns) - 1
  ∧ (∃ pattern,
       last (trace (search INCLUDE_RISKY REACHER_API_URL requests_post
                      unique_patterns))
       = Some (EvValidate pattern))
  ∧ (patterns_tested (search INCLUDE_RISKY REACHER_API_URL requests_post
                        unique_patterns)
     = length unique_patterns
     ∨ ∃ pattern,
         unique_patterns
           !! (patterns_tested (search INCLUDE_RISKY REACHER_API_URL
                                  requests_post unique_patterns) - 1)
         = Some pattern
         ∧ safe_hit REACHER_API_URL requests_post pattern = true).
Proof.
  intros Hne.
  pose proof (search_tested_prefix INCLUDE_RISKY REACHER_API_URL requests_post
                unique_patterns) as Htake.
  destruct (search_effects INCLUDE_RISKY REACHER_API_URL requests_post
              unique_patterns) as (Htr & _ & Htest).
  pose proof (tested_prefix_end REACHER_API_URL requests_post unique_patterns)
    as Hend.
  set (s := search INCLUDE_RISKY REACHER_API_URL requests_post unique_patterns)
    in *.
  set (tested := tested_prefix REACHER_API_URL requests_post unique_patterns)
    in *.
  assert (Hpos : tested ≠ []).
  { subst tested. destruct unique_patterns; [done|].
    apply tested_prefix_nonempty. }
  assert (Hlen : 1 ≤ length tested ≤ length unique_patterns).
  { split; [destruct tested; [done|simpl; lia]|].
    rewrite Htake, length_take. lia. }
  rewrite Htr. split; [by rewrite <- Htake|]. split; [by rewrite Htest|].
  split; [by rewrite sleeps_sleep_between, Htest|].
  split.
  { rewrite last_sleep_between.
    destruct (last tested) as [pattern|] eqn:Hlast; [by exists pattern|].
    by apply last_None in Hlast. }
  destruct Hend as [Hall|(pattern & Hlast & Hsafe)].
  { left. by rewrite Htest, Hall. }
  right. exists pattern. split; [|done].
  rewrite Htest. rewrite last_lookup in Hlast.
  rewrite Htake in Hlast at 2. apply lookup_take_Some in Hlast as [Hlook _].
  rewrite <- Hlook. f_equal. lia.
Qed.

Lemma rate_limit_between_calls_witness :
  trace (search true example_url example_post
           [u "a@x.com"; u "down@x.com"; u "b@x.com"; u "c@x.com"])
  = [ EvValidate (u "a@x.com"); EvSleep; EvValidate (u "down@x.com"); EvSleep;
      EvValidate (u "b@x.com") ]
  ∧ sleeps (trace (search true example_url example_post
                     [u "a@x.com"; u "down@x.com"; u "b@x.com"; u "c@x.com"]))
    = 3 - 1.
Proof.
  assert (Hne : [u "a@x.com"; u "down@x.com"; u "b@x.com"; u "c@x.com"]
                ≠ @nil (list N)) by discriminate.
  destruct (rate_limit_between_calls true example_url example_post
              [u "a@x.com"; u "down@x.com"; u "b@x.com"; u "c@x.com"] Hne)
    as (Htr & _ & Hsl & _).
  split; [rewrite Htr; vm_compute; reflexivity|exact Hsl].
Defined.

(** C9. Without [INCLUDE_RISKY], when every deliverable reply is risky,
    the run holds no best candidate, the record reports "none_found", and
    [patterns_validated] is the number of deliverable risky candidates (all
    candidates are tested). *)
Theorem risky_only_without_include_risky
    (REACHER_API_URL : pystr) (requests_post : pystr → pystr → PostOutcome)
    (unique_patterns : list pystr) (first_name last_name domain : pystr) :
  all_risky REACHER_API_URL requests_post unique_patterns →
  best (search false REACHER_API_URL requests_post unique_patterns)
  = (None, None, None)
  ∧ col_validated_email
      (build_record first_name last_name domain
         (search false REACHER_API_URL requests_post unique_patterns))
    = []
  ∧ col_validation_status
      (build_record first_name last_name domain
         (search false REACHER_API_URL requests_post unique_patterns))
    = u "none_found"
  ∧ patterns_validated
      (search false REACHER_API_URL requests_post unique_patterns)
    = length (filter (λ p, risky_hit REACHER_API_URL requests_post p = true)
                unique_patterns)
  ∧ patterns_tested
      (search false REACHER_API_URL requests_post unique_patterns)
    = length unique_patterns.
Proof.
  intros Hall.
  pose proof (all_risky_no_safe REACHER_API_URL requests_post _ Hall) as Hno.
  assert (Hbest : best (search false REACHER_API_URL requests_post
                          unique_patterns) = (None, None, None)).
  { unfold search. by rewrite for_loop_risky_off. }
  destruct (search_effects false REACHER_API_URL requests_post unique_patterns)
    as (_ & Hval & Htest).
  rewrite tested_prefix_no_safe in Hval, Htest by done.
  split; [done|].
  unfold best in Hbest. injection Hbest as He Hs Hr.
  unfold build_record. cbn [col_validated_email col_validation_status].
  rewrite He, Hs. do 2 (split; [done|]). split; [|done].
  rewrite Hval. f_equal. clear -Hall.
  induction Hall as [|p rest Hp _ IH]; [done|].
  rewrite !filter_cons, IH, (all_risky_risky_hit _ _ _ Hp). done.
Qed.

Lemma risky_only_without_include_risky_witness :
  col_validation_status
    (build_record (u "A") (u "B") (u "x.com")
       (search false example_url example_post
          [u "a@x.com"; u "down@x.com"; u "a2@x.com"; u "z@x.com"]))
  = u "none_found"
  ∧ patterns_validated
      (search false example_url example_post
         [u "a@x.com"; u "down@x.com"; u "a2@x.com"; u "z@x.com"])
    = 2.
Proof.
  assert (Hall : all_risky example_url example_post
                   [u "a@x.com"; u "down@x.com"; u "a2@x.com"; u "z@x.com"]).
  { repeat constructor; vm_compute; congruence. }
  destruct (risky_only_without_include_risky example_url example_post
              [u "a@x.com"; u "down@x.com"; u "a2@x.com"; u "z@x.com"]
              (u "A") (u "B") (u "x.com") Hall)
    as (_ & _ & Hstatus & Hval & _).
  split; [exact Hstatus|]. rewrite Hval. vm_compute. reflexivity.
Defined.

(** C1 as worded fails: with [INCLUDE_RISKY] and two risky deliverable
    candidates, the run ends holding the second one. *)
Lemma first_risky_kept_counterexample :
  risky_hit example_url example_post (u "a@x.com") = true
  ∧ risky_hit example_url example_post (u "a2@x.com") = true
  ∧ all_risky example_url example_post [u "a@x.com"; u "a2@x.com"]
  ∧ best_email (search true example_url example_post
                  [u "a@x.com"; u "a2@x.com"])
    = Some (u "a2@x.com")
  ∧ best_email (search true example_url example_post
                  [u "a@x.com"; u "a2@x.com"])
    ≠ Some (u "a@x.com").
Proof.
  split; [vm_compute; reflexivity|]. split; [vm_compute; reflexivity|].
  split; [repeat constructor|]. split; vm_compute; [reflexivity|congruence].
Qed.

(** C1, amended. With [INCLUDE_RISKY], when every deliverable reply is
    risky, the run ends holding the last risky deliverable candidate:
    each risky deliverable candidate replaces the risky candidate held
    before it. *)
Theorem risky_only_with_include_risky
    (REACHER_API_URL : pystr) (requests_post : pystr → pystr → PostOutcome)
    (unique_patterns : list pystr) :
  all_risky REACHER_API_URL requests_post unique_patterns →
  best (search true REACHER_API_URL requests_post unique_patterns)
  = match last (filter (λ p, is_hit REACHER_API_URL requests_post p = true)
                  unique_patterns) with
    | Some pattern =>
        (Some pattern, Some (u "risky"),
         Some (reply REACHER_API_URL requests_post pattern))
    | None => (None, None, None)
    end
  ∧ ∀ total pattern_idx pattern s,
      risky_hit REACHER_API_URL requests_post pattern = true →
      best_status s = Some (u "risky") →
      best (snd (loop_body true REACHER_API_URL requests_post
                   total pattern_idx pattern s))
      = (Some pattern, Some (u "risky"),
         Some (reply REACHER_API_URL requests_post pattern)).
Proof.
  intros Hall. split.
  { unfold search. by rewrite for_loop_risky_on. }
  intros total pattern_idx pattern s Hrisky Hstatus.
  rewrite loop_body_cases.
  pose proof Hrisky as [Hhit Hst]%risky_hit_inv.
  unfold safe_hit. rewrite Hhit, Hst. vm_compute bool_decide. cbn [andb snd].
  rewrite best_rate_limit. unfold risky_update.
  pose proof (best_counted REACHER_API_URL requests_post pattern_idx pattern s)
    as Hbc.
  unfold best in Hbc. injection Hbc as _ Hs _.
  rewrite Hrisky, Hs, Hstatus. by vm_compute bool_decide.
Qed.

Lemma risky_only_with_include_risky_witness :
  best_email (search true example_url example_post
                [u "a@x.com"; u "down@x.com"; u "a2@x.com"; u "z@x.com"])
  = Some (u "a2@x.com").
Proof.
  assert (Hall : all_risky example_url example_post
                   [u "a@x.com"; u "down@x.com"; u "a2@x.com"; u "z@x.com"]).
  { repeat constructor; vm_compute; congruence. }
  destruct (risky_only_with_include_risky example_url example_post
              [u "a@x.com"; u "down@x.com"; u "a2@x.com"; u "z@x.com"] Hall)
    as (Hbest & _).
  exact (f_equal (λ b, fst (fst b)) Hbest).
Defined.

Lemma build_record_status first_name last_name domain s status :
  best_status s = Some status →
  status = u "safe" ∨ status = u "risky" →
  col_validation_status (build_record first_name last_name domain s) = status.
Proof. intros Hs [->| ->]; unfold build_record; cbn; by rewrite Hs. Qed.

(** C6. The loop starts holding nothing, and an iteration only ever
    stores a candidate with the reply it got, deliverable and not
    invalid, with status safe or risky; so this holds of the state after
    every iteration and of the outcome, the candidate held is one of the
    list, and the status reported for a lead is safe, risky or none_found,
    never invalid. *)
Theorem best_is_always_a_valid_hit
    (INCLUDE_RISKY : bool) (REACHER_API_URL : pystr)
    (requests_post : pystr → pystr → PostOutcome) :
  best_is_valid_hit REACHER_API_URL requests_post initial_state
  ∧ (∀ total pattern_idx pattern s,
       best_is_valid_hit REACHER_API_URL requests_post s →
       best_is_valid_hit REACHER_API_URL requests_post
         (snd (loop_body INCLUDE_RISKY REACHER_API_URL requests_post
                 total pattern_idx pattern s)))
  ∧ (∀ unique_patterns,
       best_is_valid_hit REACHER_API_URL requests_post
         (search INCLUDE_RISKY REACHER_API_URL requests_post unique_patterns)
       ∧ ∀ pattern,
           best_email (search INCLUDE_RISKY REACHER_API_URL requests_post
                         unique_patterns) = Some pattern →
           pattern ∈ unique_patterns)
  ∧ (∀ unique_patterns first_name last_name domain,
       col_validation_status
         (build_record first_name last_name domain
            (search INCLUDE_RISKY REACHER_API_URL requests_post
               unique_patterns))
       ∈ [u "safe"; u "risky"; u "none_found"])
  ∧ (∀ str_lower isspace normalize_NFD category_Mn MAX_PATTERNS_PER_LEAD
       lead record,
       validate_lead str_lower isspace normalize_NFD category_Mn
         MAX_PATTERNS_PER_LEAD INCLUDE_RISKY REACHER_API_URL requests_post
         lead = Some record →
       col_validation_status record ∈ [u "safe"; u "risky"; u "none_found"]
       ∧ col_validation_status record ≠ u "invalid").
Proof.
  assert (Hsearch : ∀ unique_patterns,
    best_is_valid_hit REACHER_API_URL requests_post
      (search INCLUDE_RISKY REACHER_API_URL requests_post unique_patterns)).
  { intros. by apply for_loop_valid. }
  assert (Hstatus : ∀ unique_patterns first_name last_name domain,
    col_validation_status
      (build_record first_name last_name domain
         (search INCLUDE_RISKY REACHER_API_URL requests_post unique_patterns))
    ∈ [u "safe"; u "risky"; u "none_found"]).
  { intros unique_patterns first_name last_name domain.
    specialize (Hsearch unique_patterns).
    set (s := search INCLUDE_RISKY REACHER_API_URL requests_post
                unique_patterns) in *.
    unfold best_is_valid_hit in Hsearch.
    destruct (best_email s) as [pattern|] eqn:He,
             (best_status s) as [status|] eqn:Hs,
             (best_result s) as [result|] eqn:Hr; try done.
    - destruct Hsearch as (_ & _ & _ & _ & Hor).
      rewrite (build_record_status first_name last_name domain s status Hs Hor).
      destruct Hor as [->| ->]; set_solver.
    - unfold build_record. cbn. rewrite Hs. set_solver. }
  split; [done|]. split; [apply loop_body_valid|].
  split; [|split; [done|]].
  - intros unique_patterns. split; [done|]. intros pattern Hbest.
    destruct (for_loop_best_email INCLUDE_RISKY REACHER_API_URL requests_post
                unique_patterns (length unique_patterns) 1 initial_state)
      as [Hinit|(q & Hq & Hbq)]; unfold search in Hbest.
    + by rewrite Hinit in Hbest.
    + rewrite Hbq in Hbest. by injection Hbest as <-.
  - intros str_lower isspace normalize_NFD category_Mn MAX_PATTERNS_PER_LEAD
      lead record. unfold validate_lead.
    destruct (lead_patterns _ _ _ _ _ lead) as [unique_patterns|]; [|done].
    intros [= <-]. split; [done|].
    intros Hinv. specialize (Hstatus unique_patterns
      (strip isspace (first_name lead)) (strip isspace (last_name lead))
      (strip isspace (company_domain lead))).
    rewrite Hinv in Hstatus. revert Hstatus. clear.
    rewrite !elem_of_cons, elem_of_nil. by vm_compute; intuition congruence.
Qed.

Lemma best_is_always_a_valid_hit_witness :
  col_validation_status
    (build_record (u "A") (u "B") (u "x.com")
       (search true example_url example_post
          [u "down@x.com"; u "a@x.com"; u "b@x.com"]))
  ∈ [u "safe"; u "risky"; u "none_found"]
  ∧ best_is_valid_hit example_url example_post
      (snd (loop_body true example_url example_post 3 1 (u "a@x.com")
              initial_state)).
Proof.
  destruct (best_is_always_a_valid_hit true example_url example_post)
    as (Hinit & Hstep & _ & Hstatus & _).
  split; [apply Hstatus|]. apply Hstep, Hinit.
Defined.

(** C7. When the request for a candidate raises a [RequestException],
    [validate_email] returns a result with [is_reachable] "invalid", no
    deliverable mailbox and the error text, and the loop rejects the
    candidate like any other: the iteration continues with the next
    candidate, the best candidate and [patterns_validated] are left as
    they were, and [patterns_tested] counts the candidate. *)
Theorem transport_failure_is_a_rejection
    (INCLUDE_RISKY : bool) (REACHER_API_URL : pystr)
    (requests_post : pystr → pystr → PostOutcome) (email err : pystr) :
  requests_post (api_url REACHER_API_URL ++ u "/v0/check_email") email
  = RequestException err →
  validate_email REACHER_API_URL requests_post email
  = {| is_reachable := Some (u "invalid");
       smtp := None; misc := None; mx := None;
       is_reachable_smtp := Some false; can_connect_smtp := Some false;
       error := Some err; email := None |}
  ∧ reachability REACHER_API_URL requests_post email = u "invalid"
  ∧ is_hit REACHER_API_URL requests_post email = false
  ∧ (∀ total pattern_idx s,
       loop_body INCLUDE_RISKY REACHER_API_URL requests_post
         total pattern_idx email s
       = (Continue,
          rate_limit total pattern_idx
            (log (EvValidate email) (set_patterns_tested pattern_idx s))))
  ∧ (∀ total pattern_idx rest s,
       for_loop INCLUDE_RISKY REACHER_API_URL requests_post
         total pattern_idx (email :: rest) s
       = for_loop INCLUDE_RISKY REACHER_API_URL requests_post
           total (S pattern_idx) rest
           (rate_limit total pattern_idx
              (log (EvValidate email) (set_patterns_tested pattern_idx s))))
  ∧ (∀ pre post,
       Forall (λ p, safe_hit REACHER_API_URL requests_post p = false) pre →
       length pre + 1
       ≤ patterns_tested (search INCLUDE_RISKY REACHER_API_URL requests_post
                            (pre ++ email :: post))
       ∧ email ∈ calls (trace (search INCLUDE_RISKY REACHER_API_URL
                                 requests_post (pre ++ email :: post)))
       ∧ patterns_validated (search INCLUDE_RISKY REACHER_API_URL
                               requests_post (pre ++ email :: post))
         = length
             (filter (λ p, is_hit REACHER_API_URL requests_post p = true)
                (take (patterns_tested
                         (search INCLUDE_RISKY REACHER_API_URL requests_post
                            (pre ++ email :: post)))
                   (pre ++ email :: post)))).
Proof.
  intros Hfail.
  assert (Hresult : validate_email REACHER_API_URL requests_post email
    = {| is_reachable := Some (u "invalid");
         smtp := None; misc := None; mx := None;
         is_reachable_smtp := Some false; can_connect_smtp := Some false;
         error := Some err; email := None |}).
  { unfold validate_email. by rewrite Hfail. }
  assert (Hst : reachability REACHER_API_URL requests_post email = u "invalid").
  { unfold reachability, reply. by rewrite Hresult. }
  assert (Hhit : is_hit REACHER_API_URL requests_post email = false).
  { unfold is_hit, reply. by rewrite Hresult. }
  assert (Hsafe : safe_hit REACHER_API_URL requests_post email = false).
  { unfold safe_hit. by rewrite Hhit. }
  assert (Hbody : ∀ total pattern_idx s,
    loop_body INCLUDE_RISKY REACHER_API_URL requests_post
      total pattern_idx email s
    = (Continue,
       rate_limit total pattern_idx
         (log (EvValidate email) (set_patterns_tested pattern_idx s)))).
  { intros. rewrite loop_body_cases, Hsafe.
    unfold risky_update, risky_hit, counted. by rewrite Hhit. }
  do 4 (split; [done|]). split.
  { intros total pattern_idx rest s.
    change (for_loop INCLUDE_RISKY REACHER_API_URL requests_post
              total pattern_idx (email :: rest) s)
      with (match loop_body INCLUDE_RISKY REACHER_API_URL requests_post
                    total pattern_idx email s with
            | (Break, s') => s'
            | (Continue, s') =>
                for_loop INCLUDE_RISKY REACHER_API_URL requests_post
                  total (S pattern_idx) rest s'
            end).
    by rewrite Hbody. }
  intros pre post Hpre.
  pose proof (search_tested_prefix INCLUDE_RISKY REACHER_API_URL requests_post
                (pre ++ email :: post)) as Htake.
  destruct (search_effects INCLUDE_RISKY REACHER_API_URL requests_post
              (pre ++ email :: post)) as (Htr & Hval & Htest).
  rewrite <- Htake, Hval, Htr, Htest, calls_sleep_between.
  assert (Hprefix : tested_prefix REACHER_API_URL requests_post
                      (pre ++ email :: post)
                    = pre ++ email
                        :: tested_prefix REACHER_API_URL requests_post post).
  { clear -Hpre Hsafe. induction Hpre as [|q pre Hq _ IH]; simpl.
    - by rewrite Hsafe.
    - by rewrite Hq, IH. }
  rewrite Hprefix. split; [rewrite length_app; simpl; lia|].
  split; [|done]. apply elem_of_app. right. left.
Qed.

Lemma transport_failure_is_a_rejection_witness :
  error (validate_email example_url example_post (u "down@x.com"))
  = Some (u "Read timed out.")
  ∧ patterns_tested (search true example_url example_post
                       [u "down@x.com"; u "a@x.com"]) = 2
  ∧ patterns_validated (search true example_url example_post
                          [u "down@x.com"; u "a@x.com"]) = 1.
Proof.
  assert (Hfail : example_post (api_url example_url ++ u "/v0/check_email")
                    (u "down@x.com")
                  = RequestException (u "Read timed out.")) by reflexivity.
  destruct (transport_failure_is_a_rejection true example_url example_post
              (u "down@x.com") (u "Read timed out.") Hfail)
    as (Hresult & _ & _ & _ & Hloop & Hrun).
  split; [by rewrite Hresult|].
  destruct (Hrun [] [u "a@x.com"] (Forall_nil_2 _)) as (_ & _ & Hval).
  cbn [app] in Hval.
  split; [|rewrite Hval]; vm_compute; reflexivity.
Defined.
